(** * Token-bucket admission middleware (src/index.ts)

    A shallow embedding of the per-client token-bucket rate limiter
    [tokenBucket] and of its client identity resolver [getKey].

    Conventions of the embedding.
    - A JavaScript [number] is modelled by an exact rational ([Q]): the
      arithmetic of the source ([-], [/], [*], [+], [Math.min], [>], [>=])
      is carried out without rounding.  Computed values are compared with
      [==] ([Qeq]); values the code leaves alone are compared with [=].
      The source computes in binary64, where [(now - last) / 1000],
      [delta * RATE] and the sum round; a token count that has gone
      through such steps can differ from the exact one in its last bits.
      The theorems below are stated so as not to hang on those bits:
      bounds, verdicts at whole-token and whole-100-ms thresholds, and
      facts about which bucket is touched.
    - The module-level [Map<string, Bucket>] is a [gmap string Bucket] that
      is passed in and returned.  A bucket obtained from the map is mutated
      in place by the source; the embedding writes the final bucket back
      under the same key.
    - [Date.now()] is an input of each invocation (the clock reading, in
      milliseconds).
    - The two things the middleware can do to the pipeline, [next()] and
      [res.status(429).json(..)], are the constructors of [Effect]. *)

From Stdlib Require Import QArith Qminmax Lqa.
From stdpp Require Import gmap strings.

Local Open Scope Q_scope.

(** ** Data model *)

(** [type Bucket = { tokens: number; last: number }] *)
Record Bucket : Type := mkBucket { tokens : Q; last : Q }.

(** [const RATE = 10], [const CAPACITY = 50], [const REFILL_INTERVAL = 1000].
    The last one is declared by the source but never read: the refill
    divides by the literal [1000]. *)
Definition RATE : Q := 10.
Definition CAPACITY : Q := 50.
Definition REFILL_INTERVAL : Q := 1000.

(** [const cost = 1] (local to [tokenBucket]). *)
Definition cost : Q := 1.

(** The fields of an Express request that [getKey] reads.  Each one is a
    string or [undefined]; Node joins repeated [x-forwarded-for] headers
    into one string, so the header is never an array at run time. *)
Record Request : Type := mkRequest {
  ip : option string;
  x_forwarded_for : option string;
  remoteAddress : option string
}.

(** What the middleware does with the pipeline. *)
Inductive Effect : Type :=
| CallNext
| Respond (status : Z) (error : string).

(** ** JavaScript operators used by the source *)

(** Truthiness of a [string | undefined]: [undefined] and the empty string
    are falsy, every other string is truthy. *)
Definition truthy (v : option string) : bool :=
  match v with
  | Some s => negb (String.eqb s EmptyString)
  | None => false
  end.

(** [a || b] on [string | undefined] operands. *)
Definition js_or (a b : option string) : option string :=
  if truthy a then a else b.

(** [a || 'lit']: the right operand is a string literal, so is the result
    a string. *)
Definition js_or_lit (a : option string) (lit : string) : string :=
  match a with
  | Some s => if truthy a then s else lit
  | None => lit
  end.

(** [x > y] and [x >= y] on numbers. *)
Definition Qgtb (x y : Q) : bool := negb (Qle_bool x y).
Definition Qgeb (x y : Q) : bool := Qle_bool y x.

(** ** The client identity resolver *)

(** [return (req.ip || req.headers['x-forwarded-for'] ||
            req.socket.remoteAddress) as string] *)
Definition getKey (req : Request) : option string :=
  js_or (js_or (ip req) (x_forwarded_for req)) (remoteAddress req).

(** [const key = getKey(req) || 'anon'] *)
Definition clientKey (req : Request) : string :=
  js_or_lit (getKey req) "anon".

(** ** The body of [tokenBucket], phase by phase *)

(** [let bucket = buckets.get(key);
     if (!bucket) { bucket = { tokens: CAPACITY, last: now };
                    buckets.set(key, bucket); }] *)
Definition getOrCreate (buckets : gmap string Bucket) (key : string) (now : Q)
  : Bucket * gmap string Bucket :=
  match buckets !! key with
  | Some bucket => (bucket, buckets)
  | None =>
      let bucket := {| tokens := CAPACITY; last := now |} in
      (bucket, <[key := bucket]> buckets)
  end.

(** [const delta = (now - bucket.last) / 1000] *)
Definition elapsed (bucket : Bucket) (now : Q) : Q :=
  (now - last bucket) / 1000.

(** [if (delta > 0) {
       bucket.tokens = Math.min(CAPACITY, bucket.tokens + delta * RATE);
       bucket.last = now; }] *)
Definition refill (bucket : Bucket) (now : Q) : Bucket :=
  let delta := elapsed bucket now in
  if Qgtb delta 0 then
    {| tokens := Qmin CAPACITY (tokens bucket + delta * RATE); last := now |}
  else bucket.

(** [res.status(429).json({ error: '..' })] *)
Definition tooManyRequests : Effect :=
  Respond 429 "Too many requests â€” slow down".

(** [if (bucket.tokens >= cost) { bucket.tokens -= cost; next(); }
     else { res.status(429).json({ error: '..' }); }] *)
Definition charge (bucket : Bucket) : Bucket * Effect :=
  if Qgeb (tokens bucket) cost then
    ({| tokens := tokens bucket - cost; last := last bucket |}, CallNext)
  else
    (bucket, tooManyRequests).

(** The middleware once the key is known: fetch or create the bucket,
    refill it, charge it, and leave the mutated bucket in the map. *)
Definition tokenBucketAt (buckets : gmap string Bucket) (key : string) (now : Q)
  : gmap string Bucket * Effect :=
  let '(bucket, buckets1) := getOrCreate buckets key now in
  let '(bucket', eff) := charge (refill bucket now) in
  (<[key := bucket']> buckets1, eff).

(** [export function tokenBucket(req, res, next)] *)
Definition tokenBucket (buckets : gmap string Bucket) (req : Request) (now : Q)
  : gmap string Bucket * Effect :=
  tokenBucketAt buckets (clientKey req) now.

(** A request is admitted (it proceeds to the next stage) when the
    middleware calls [next()]. *)
Definition proceeds (e : Effect) : bool :=
  match e with
  | CallNext => true
  | Respond _ _ => false
  end.

(** ** Sequences of invocations *)

(** Invocations in arrival order, each with its clock reading; the effects
    come back in the same order. *)
Fixpoint serve (buckets : gmap string Bucket) (calls : list (Request * Q))
  : gmap string Bucket * list Effect :=
  match calls with
  | [] => (buckets, [])
  | (req, now) :: rest =>
      let '(buckets1, eff) := tokenBucket buckets req now in
      let '(buckets2, effs) := serve buckets1 rest in
      (buckets2, eff :: effs)
  end.

Definition fromIp (addr : string) : Request :=
  {| ip := Some addr; x_forwarded_for := None; remoteAddress := None |}.

(** The bucket the middleware works on for [key]: the stored one, or the
    one it has just created. *)
Definition bucketFor (buckets : gmap string Bucket) (key : string) (now : Q)
  : Bucket :=
  fst (getOrCreate buckets key now).

(** [0 <= tokens <= CAPACITY] *)
Definition bucket_ok (b : Bucket) : Prop :=
  0 <= tokens b /\ tokens b <= CAPACITY.

Definition store_ok (buckets : gmap string Bucket) : Prop :=
  map_Forall (fun _ b => bucket_ok b) buckets.

(** The resolver in the words of the specification: an address is
    available when it is present and not the empty string; the key is the
    first available one among the peer address, the forwarded-for header
    and the socket's remote address, and ["anon"] when there is none. *)
Definition available (v : option string) : option string :=
  match v with
  | Some EmptyString => None
  | Some s => Some s
  | None => None
  end.

Definition preferredKey_spec (req : Request) : string :=
  match available (ip req) with
  | Some peer => peer
  | None =>
      match available (x_forwarded_for req) with
      | Some forwarded => forwarded
      | None =>
          match available (remoteAddress req) with
          | Some remote => remote
          | None => "anon"
          end
      end
  end.

(** ** Vocabulary for runs with several keys *)

(** No source of identity resolves: [req.ip], the forwarded-for header and
    the socket address are all falsy. *)
Definition unresolved (req : Request) : bool :=
  negb (truthy (ip req)) && negb (truthy (x_forwarded_for req))
  && negb (truthy (remoteAddress req)).

(** The calls of a run that resolve to [key]. *)
Definition callsFor (key : string) (calls : list (Request * Q))
  : list (Request * Q) :=
  filter (fun c => clientKey (fst c) = key) calls.

(** The answers of a run that went to the calls of [key]. *)
Fixpoint answersFor (key : string) (calls : list (Request * Q))
    (effs : list Effect) : list Effect :=
  match calls, effs with
  | (req, _) :: calls', eff :: effs' =>
      if decide (clientKey req = key)
      then eff :: answersFor key calls' effs'
      else answersFor key calls' effs'
  | _, _ => []
  end.

(** How many of the answers are [next()]. *)
Fixpoint admissions (effs : list Effect) : nat :=
  match effs with
  | [] => 0
  | eff :: effs' => (if proceeds eff then 1 else 0) + admissions effs'
  end.

(** The latest clock reading among [start] and [times]. *)
Definition latest (start : Q) (times : list Q) : Q :=
  fold_left Qmax times start.

(** Clock readings that are each at least 100 ms (the time [RATE] needs
    to refill [cost]) after the one before, starting after [prev]. *)
Fixpoint spaced (prev : Q) (times : list Q) : Prop :=
  match times with
  | [] => True
  | t :: rest => prev + 100 <= t /\ spaced t rest
  end.

(** * Properties *)

(** ** The comparisons *)

Lemma Qgtb_lt (x y : Q) : Qgtb x y = true <-> y < x.
Proof.
  unfold Qgtb. rewrite negb_true_iff, <- not_true_iff_false, Qle_bool_iff.
  split; [apply Qnot_le_lt | apply Qlt_not_le].
Qed.

Lemma Qgtb_le (x y : Q) : Qgtb x y = false <-> x <= y.
Proof. unfold Qgtb. rewrite negb_false_iff. apply Qle_bool_iff. Qed.

Lemma Qgeb_le (x y : Q) : Qgeb x y = true <-> y <= x.
Proof. apply Qle_bool_iff. Qed.

Lemma Qgeb_lt (x y : Q) : Qgeb x y = false <-> x < y.
Proof.
  unfold Qgeb. rewrite <- not_true_iff_false, Qle_bool_iff.
  split; [apply Qnot_le_lt | apply Qlt_not_le].
Qed.

(** ** One bucket *)

Lemma elapsed_pos (b : Bucket) (now : Q) : 0 < elapsed b now <-> last b < now.
Proof.
  unfold elapsed. split; intros H.
  - assert (E : now - last b == (now - last b) / 1000 * 1000) by (field; discriminate).
    lra.
  - apply Qlt_shift_div_l; lra.
Qed.

Lemma refill_later (b : Bucket) (now : Q) :
  last b < now ->
  refill b now =
    {| tokens := Qmin CAPACITY (tokens b + elapsed b now * RATE); last := now |}.
Proof.
  intros H. unfold refill. apply elapsed_pos, Qgtb_lt in H. now rewrite H.
Qed.

Lemma refill_not_later (b : Bucket) (now : Q) : now <= last b -> refill b now = b.
Proof.
  intros H. unfold refill.
  destruct (Qgtb (elapsed b now) 0) eqn:E; [|reflexivity].
  apply Qgtb_lt, elapsed_pos in E. lra.
Qed.

Lemma refill_ok (b : Bucket) (now : Q) : bucket_ok b -> bucket_ok (refill b now).
Proof.
  intros [H0 H1]. destruct (Qlt_le_dec (last b) now) as [Hl|Hl].
  - rewrite (refill_later _ _ Hl). unfold bucket_ok; simpl.
    apply elapsed_pos in Hl. split.
    + apply Q.min_glb; unfold CAPACITY, RATE in *; nra.
    + apply Q.le_min_l.
  - rewrite (refill_not_later _ _ Hl). now split.
Qed.

Lemma charge_ok (b : Bucket) : bucket_ok b -> bucket_ok (fst (charge b)).
Proof.
  intros [H0 H1]. unfold charge.
  destruct (Qgeb (tokens b) cost) eqn:E; simpl; [|now split].
  apply Qgeb_le in E. unfold bucket_ok, cost, CAPACITY in *; simpl. lra.
Qed.

(** ** One invocation on the store *)

Lemma bucketFor_found (buckets : gmap string Bucket) key now b :
  buckets !! key = Some b -> bucketFor buckets key now = b.
Proof. intros H. unfold bucketFor, getOrCreate. now rewrite H. Qed.

Lemma bucketFor_fresh (buckets : gmap string Bucket) key now :
  buckets !! key = None ->
  bucketFor buckets key now = {| tokens := CAPACITY; last := now |}.
Proof. intros H. unfold bucketFor, getOrCreate. now rewrite H. Qed.

(** The invocation as one update of the map: the bucket of [key] becomes
    the charged, refilled bucket. *)
Lemma tokenBucketAt_unfold (buckets : gmap string Bucket) key now :
  tokenBucketAt buckets key now =
    (<[key := fst (charge (refill (bucketFor buckets key now) now))]> buckets,
     snd (charge (refill (bucketFor buckets key now) now))).
Proof.
  unfold tokenBucketAt, bucketFor, getOrCreate.
  destruct (buckets !! key) as [b|]; simpl.
  - now destruct (charge (refill b now)).
  - destruct (charge _); simpl. now rewrite insert_insert_eq.
Qed.

Lemma tokenBucketAt_same (buckets : gmap string Bucket) key now :
  fst (tokenBucketAt buckets key now) !! key =
    Some (fst (charge (refill (bucketFor buckets key now) now))).
Proof. rewrite tokenBucketAt_unfold. simpl. apply lookup_insert_eq. Qed.

Lemma tokenBucketAt_other (buckets : gmap string Bucket) key key' now :
  key <> key' ->
  fst (tokenBucketAt buckets key now) !! key' = buckets !! key'.
Proof. intros H. rewrite tokenBucketAt_unfold. simpl. now apply lookup_insert_ne. Qed.

Lemma tokenBucketAt_ok (buckets : gmap string Bucket) key now :
  store_ok buckets -> store_ok (fst (tokenBucketAt buckets key now)).
Proof.
  intros Hok. rewrite tokenBucketAt_unfold. simpl.
  apply map_Forall_insert_2; [|exact Hok].
  apply charge_ok, refill_ok.
  destruct (buckets !! key) as [b|] eqn:E.
  - rewrite (bucketFor_found _ _ _ _ E). exact (Hok _ _ E).
  - rewrite (bucketFor_fresh _ _ _ E). unfold bucket_ok, CAPACITY; simpl. lra.
Qed.

(** ** Sequences of invocations *)

Lemma serve_cons (buckets : gmap string Bucket) req now rest :
  serve buckets ((req, now) :: rest) =
    (fst (serve (fst (tokenBucket buckets req now)) rest),
     snd (tokenBucket buckets req now)
       :: snd (serve (fst (tokenBucket buckets req now)) rest)).
Proof.
  simpl. destruct (tokenBucket buckets req now) as [b1 e]. simpl.
  now destruct (serve b1 rest).
Qed.

Lemma serve_ok (calls : list (Request * Q)) (buckets : gmap string Bucket) :
  store_ok buckets -> store_ok (fst (serve buckets calls)).
Proof.
  revert buckets. induction calls as [|[req now] rest IH]; intros buckets Hok.
  - exact Hok.
  - rewrite serve_cons. simpl. apply IH. now apply tokenBucketAt_ok.
Qed.

Lemma refill_saturates (b : Bucket) (now : Q) :
  0 <= tokens b -> CAPACITY / RATE < elapsed b now ->
  tokens (refill b now) == CAPACITY.
Proof.
  intros H0 Hd. unfold CAPACITY, RATE in *.
  assert (Hd' : 5 < elapsed b now).
  { eapply Qle_lt_trans; [|exact Hd]. apply Qle_lteq; right. reflexivity. }
  rewrite refill_later by (apply elapsed_pos; lra). simpl.
  apply Q.min_l. unfold RATE. lra.
Qed.

(** ** Capacity bound *)

(** C1. Whatever invocations the process has served since it started, with
    any requests and any clock readings, after each of them (after the
    first [n], for every [n]) every bucket [b] in the store has
    [0 <= tokens <= CAPACITY]; and a refill of such a bucket at any later
    clock reading [now] stays at or below [CAPACITY], reaching exactly
    [CAPACITY] once the bucket has idled for more than [CAPACITY / RATE]
    seconds. *)
Theorem capacity_bound (calls : list (Request * Q)) (n : nat)
    (key : string) (b : Bucket) (now : Q) :
  fst (serve ∅ (take n calls)) !! key = Some b ->
  (0 <= tokens b /\ tokens b <= CAPACITY) /\
  tokens (refill b now) <= CAPACITY /\
  (CAPACITY / RATE < elapsed b now -> tokens (refill b now) == CAPACITY).
Proof.
  intros Hb.
  assert (Hok : bucket_ok b).
  { exact (serve_ok (take n calls) ∅ (map_Forall_empty _) key b Hb). }
  split; [exact Hok|]. split.
  - apply (refill_ok b now Hok).
  - apply refill_saturates. apply Hok.
Qed.

Lemma capacity_bound_witness :
  (0 <= 49 /\ 49 <= CAPACITY) /\
  tokens (refill {| tokens := 49; last := 0 |} 6000) <= CAPACITY /\
  (CAPACITY / RATE < elapsed {| tokens := 49; last := 0 |} 6000 ->
   tokens (refill {| tokens := 49; last := 0 |} 6000) == CAPACITY).
Proof.
  apply (capacity_bound [(fromIp "k", 0); (fromIp "k", 1)] 1 "k"
           {| tokens := 49; last := 0 |} 6000).
  vm_compute. reflexivity.
Defined.

(** ** The client identity resolver *)

Lemma truthy_available (v : option string) :
  available v = if truthy v then v else None.
Proof. destruct v as [[|c s]|]; reflexivity. Qed.

Lemma available_nonempty (v : option string) (s : string) :
  available v = Some s -> s <> EmptyString.
Proof. destruct v as [[|c t]|]; intros [= <-]; discriminate. Qed.

(** C8. The key the middleware uses, [getKey(req) || 'anon'], is never the
    empty string, and it is the one the preference order picks: the peer
    address, else the forwarded-for header, else the socket's remote
    address, else the literal ["anon"]. *)
Theorem clientKey_preference (req : Request) :
  clientKey req <> EmptyString /\ clientKey req = preferredKey_spec req.
Proof.
  assert (E : clientKey req = preferredKey_spec req).
  { unfold clientKey, getKey, js_or, js_or_lit, preferredKey_spec.
    rewrite !truthy_available.
    destruct req as [[[|c1 s1]|] [[|c2 s2]|] [[|c3 s3]|]]; reflexivity. }
  split; [|exact E]. rewrite E. unfold preferredKey_spec.
  destruct (available (ip req)) eqn:E1; [eapply available_nonempty; eauto|].
  destruct (available (x_forwarded_for req)) eqn:E2;
    [eapply available_nonempty; eauto|].
  destruct (available (remoteAddress req)) eqn:E3;
    [eapply available_nonempty; eauto|discriminate].
Qed.

(** ** The refill step *)

(** C5. The invocation is a total function of the store, the request and
    the clock reading.  When the clock reading is not later than the
    bucket's [last] (elapsed time [<= 0]), the refill step returns the
    bucket as it was, and the charge is applied to that bucket: the request
    is admitted exactly when [tokens >= cost]. *)
Theorem clock_not_ahead (buckets : gmap string Bucket) (req : Request) (now : Q) :
  let key := clientKey req in
  let b := bucketFor buckets key now in
  now <= last b ->
  elapsed b now <= 0 /\
  refill b now = b /\
  tokenBucket buckets req now = (<[key := fst (charge b)]> buckets, snd (charge b)) /\
  proceeds (snd (tokenBucket buckets req now)) = Qgeb (tokens b) cost.
Proof.
  intros key b H.
  assert (R : refill b now = b) by now apply refill_not_later.
  assert (T : tokenBucket buckets req now
              = (<[key := fst (charge b)]> buckets, snd (charge b))).
  { unfold tokenBucket. rewrite tokenBucketAt_unfold. fold key. fold b.
    now rewrite R. }
  split; [|split; [exact R|split; [exact T|]]].
  - destruct (Qlt_le_dec 0 (elapsed b now)) as [Hp|Hp]; [|exact Hp].
    apply elapsed_pos in Hp. lra.
  - rewrite T. simpl. unfold charge. now destruct (Qgeb (tokens b) cost).
Qed.

Lemma clock_not_ahead_witness :
  let buckets : gmap string Bucket := {[ "k" := {| tokens := 3; last := 1000 |} ]} in
  let b := bucketFor buckets (clientKey (fromIp "k")) 400 in
  elapsed b 400 <= 0 /\
  refill b 400 = b /\
  tokenBucket buckets (fromIp "k") 400
    = (<[clientKey (fromIp "k") := fst (charge b)]> buckets, snd (charge b)) /\
  proceeds (snd (tokenBucket buckets (fromIp "k") 400)) = Qgeb (tokens b) cost.
Proof.
  apply (clock_not_ahead {[ "k" := {| tokens := 3; last := 1000 |} ]}
           (fromIp "k") 400).
  vm_compute. discriminate.
Defined.

(** ** Rejection *)

(** C6. When the bucket holds fewer than [cost] tokens after the refill
    step, the invocation answers with the 429 response, which is a value
    of [Effect] and not [next()], and the bucket left in the store is the
    refilled bucket itself: nothing was subtracted. *)
Theorem rejected_below_cost (buckets : gmap string Bucket) (req : Request) (now : Q) :
  let key := clientKey req in
  let b := refill (bucketFor buckets key now) now in
  tokens b < cost ->
  snd (tokenBucket buckets req now) = tooManyRequests /\
  snd (tokenBucket buckets req now) <> CallNext /\
  proceeds (snd (tokenBucket buckets req now)) = false /\
  fst (tokenBucket buckets req now) !! key = Some b.
Proof.
  intros key b H.
  assert (C : charge b = (b, tooManyRequests)).
  { unfold charge. apply Qgeb_lt in H. now rewrite H. }
  unfold tokenBucket. rewrite tokenBucketAt_unfold. fold key. fold b.
  rewrite C. simpl. repeat split; try discriminate. apply lookup_insert_eq.
Qed.

Lemma rejected_below_cost_witness :
  let buckets : gmap string Bucket := {[ "k" := {| tokens := 0; last := 1000 |} ]} in
  let b := refill (bucketFor buckets (clientKey (fromIp "k")) 1050) 1050 in
  snd (tokenBucket buckets (fromIp "k") 1050) = tooManyRequests /\
  snd (tokenBucket buckets (fromIp "k") 1050) <> CallNext /\
  proceeds (snd (tokenBucket buckets (fromIp "k") 1050)) = false /\
  fst (tokenBucket buckets (fromIp "k") 1050) !! clientKey (fromIp "k") = Some b.
Proof.
  apply (rejected_below_cost {[ "k" := {| tokens := 0; last := 1000 |} ]}
           (fromIp "k") 1050).
  vm_compute. reflexivity.
Defined.

(** ** Linear refill *)

(** C3. Take a stored bucket with no tokens and timestamp [last b], and
    a request that arrives [D] seconds later, [D > 0], that is at clock
    reading [last b + 1000 * D] milliseconds.  It is admitted if and
    only if [D * RATE >= cost]. *)
Theorem linear_refill (buckets : gmap string Bucket) (req : Request)
    (b : Bucket) (D : Q) :
  buckets !! clientKey req = Some b ->
  tokens b == 0 ->
  0 < D ->
  proceeds (snd (tokenBucket buckets req (last b + 1000 * D))) = true
  <-> cost <= D * RATE.
Proof.
  intros Hb Ht Hd.
  assert (Hlater : last b < last b + 1000 * D) by lra.
  assert (He : elapsed b (last b + 1000 * D) == D).
  { unfold elapsed. field. }
  unfold tokenBucket. rewrite tokenBucketAt_unfold. simpl.
  rewrite (bucketFor_found _ _ _ _ Hb).
  rewrite (refill_later _ _ Hlater).
  unfold charge; simpl.
  destruct (Qgeb _ cost) eqn:E; simpl.
  - apply Qgeb_le, Q.min_glb_iff in E. split; [intros _|reflexivity].
    unfold RATE in *. lra.
  - apply Qgeb_lt, Q.min_lt_iff in E. split; [discriminate|]. intros Hc.
    unfold cost, CAPACITY, RATE in *. lra.
Qed.

Lemma linear_refill_witness :
  proceeds (snd (tokenBucket {[ "k" := {| tokens := 0; last := 1000 |} ]}
                   (fromIp "k") (1000 + 1000 * (1 # 10)))) = true
  <-> cost <= (1 # 10) * RATE.
Proof.
  apply (linear_refill {[ "k" := {| tokens := 0; last := 1000 |} ]} (fromIp "k")
           {| tokens := 0; last := 1000 |} (1 # 10)).
  - vm_compute. reflexivity.
  - reflexivity.
  - vm_compute. reflexivity.
Defined.

(** On either side of the threshold: 100 ms after the timestamp of an
    empty bucket a request is admitted, 99 ms after it is not. *)
Example linear_refill_threshold :
  proceeds (snd (tokenBucket {[ "k" := {| tokens := 0; last := 1000 |} ]}
                   (fromIp "k") 1100)) = true /\
  proceeds (snd (tokenBucket {[ "k" := {| tokens := 0; last := 1000 |} ]}
                   (fromIp "k") 1099)) = false.
Proof. split; vm_compute; reflexivity. Qed.

(** ** Key isolation *)

Lemma bucketFor_lookup (buckets1 buckets2 : gmap string Bucket) key now :
  buckets1 !! key = buckets2 !! key ->
  bucketFor buckets1 key now = bucketFor buckets2 key now.
Proof.
  intros H. unfold bucketFor, getOrCreate. rewrite H.
  now destruct (buckets2 !! key).
Qed.

(** Invocations for other keys leave the bucket of [key] alone. *)
Lemma serve_other (calls : list (Request * Q)) (buckets : gmap string Bucket) key :
  Forall (fun c => clientKey (fst c) <> key) calls ->
  fst (serve buckets calls) !! key = buckets !! key.
Proof.
  revert buckets. induction calls as [|[req now] rest IH]; intros buckets H.
  - reflexivity.
  - rewrite serve_cons. simpl. apply Forall_cons in H as [Hc Hrest]. simpl in Hc.
    rewrite IH by assumption. now apply tokenBucketAt_other.
Qed.

(** What invocations for [key] do depends on the store only through the
    bucket of [key]. *)
Lemma serve_depends_on_key (calls : list (Request * Q))
    (buckets1 buckets2 : gmap string Bucket) key :
  buckets1 !! key = buckets2 !! key ->
  Forall (fun c => clientKey (fst c) = key) calls ->
  snd (serve buckets1 calls) = snd (serve buckets2 calls) /\
  fst (serve buckets1 calls) !! key = fst (serve buckets2 calls) !! key.
Proof.
  revert buckets1 buckets2.
  induction calls as [|[req now] rest IH]; intros buckets1 buckets2 Hk H.
  - now split.
  - apply Forall_cons in H as [Hc Hrest]. simpl in Hc.
    rewrite !serve_cons. simpl.
    assert (Hb := bucketFor_lookup _ _ _ now Hk).
    unfold tokenBucket. rewrite Hc, !tokenBucketAt_unfold, Hb. simpl.
    destruct (IH (<[key := fst (charge (refill (bucketFor buckets2 key now) now))]> buckets1)
                 (<[key := fst (charge (refill (bucketFor buckets2 key now) now))]> buckets2))
      as [IH1 IH2]; [|assumption|].
    + now rewrite !lookup_insert_eq.
    + rewrite IH1, IH2. now split.
Qed.

(** C7. For two distinct keys [keyA] and [keyB], any sequence of
    invocations for [keyA] leaves the bucket of [keyB] as it was, and the
    requests for [keyB] that follow get the same answers, and leave the
    same bucket, as if the invocations for [keyA] had not happened. *)
Theorem key_isolation (buckets : gmap string Bucket)
    (callsA callsB : list (Request * Q)) (keyA keyB : string) :
  keyA <> keyB ->
  Forall (fun c => clientKey (fst c) = keyA) callsA ->
  Forall (fun c => clientKey (fst c) = keyB) callsB ->
  fst (serve buckets callsA) !! keyB = buckets !! keyB /\
  snd (serve (fst (serve buckets callsA)) callsB) = snd (serve buckets callsB) /\
  fst (serve (fst (serve buckets callsA)) callsB) !! keyB
    = fst (serve buckets callsB) !! keyB.
Proof.
  intros Hne HA HB.
  assert (Hsame : fst (serve buckets callsA) !! keyB = buckets !! keyB).
  { apply serve_other. eapply Forall_impl; [exact HA|].
    intros c Hc. simpl in Hc. congruence. }
  split; [exact Hsame|]. now apply serve_depends_on_key.
Qed.

Lemma key_isolation_witness :
  let buckets : gmap string Bucket := {[ "b" := {| tokens := 1; last := 0 |} ]} in
  let callsA := repeat (fromIp "a", 0) 60 in
  let callsB := [(fromIp "b", 0); (fromIp "b", 0)] in
  fst (serve buckets callsA) !! "b" = buckets !! "b" /\
  snd (serve (fst (serve buckets callsA)) callsB) = snd (serve buckets callsB) /\
  fst (serve (fst (serve buckets callsA)) callsB) !! "b"
    = fst (serve buckets callsB) !! "b".
Proof.
  apply (key_isolation {[ "b" := {| tokens := 1; last := 0 |} ]}
           (repeat (fromIp "a", 0) 60) [(fromIp "b", 0); (fromIp "b", 0)] "a" "b").
  - discriminate.
  - repeat constructor.
  - repeat constructor.
Defined.

(** ** The timestamp of a bucket *)

Lemma charge_last (b : Bucket) : last (fst (charge b)) = last b.
Proof. unfold charge. now destruct (Qgeb (tokens b) cost). Qed.

Lemma refill_last (b : Bucket) (now : Q) :
  last (refill b now) = last b \/ (last (refill b now) = now /\ last b < now).
Proof.
  destruct (Qlt_le_dec (last b) now) as [H|H].
  - right. rewrite (refill_later _ _ H). now split.
  - left. now rewrite (refill_not_later _ _ H).
Qed.

Lemma tokenBucket_last (buckets : gmap string Bucket) req now key b :
  buckets !! key = Some b ->
  exists b1, fst (tokenBucket buckets req now) !! key = Some b1 /\
             (last b1 = last b \/ (last b1 = now /\ last b < now)).
Proof.
  intros Hb. unfold tokenBucket.
  destruct (decide (clientKey req = key)) as [->|Hne].
  - rewrite tokenBucketAt_same, (bucketFor_found _ _ _ _ Hb).
    eexists; split; [reflexivity|]. rewrite charge_last. apply refill_last.
  - rewrite tokenBucketAt_other by assumption. exists b. split; [assumption|now left].
Qed.

Lemma serve_last_le (calls : list (Request * Q))
    (buckets : gmap string Bucket) (key : string) (b : Bucket) :
  buckets !! key = Some b ->
  exists b', fst (serve buckets calls) !! key = Some b' /\ last b <= last b'.
Proof.
  revert buckets b. induction calls as [|[r t] rest IH]; intros buckets b Hb.
  - exists b. split; [assumption|lra].
  - rewrite serve_cons. simpl.
    destruct (tokenBucket_last buckets r t key b Hb) as (b1 & Hb1 & Hl).
    destruct (IH _ _ Hb1) as (b' & Hb' & Hle).
    exists b'. split; [assumption|].
    destruct Hl as [Hl|[Hl Hlt]]; rewrite Hl in Hle; lra.
Qed.

Lemma tokenBucket_created (buckets : gmap string Bucket) req now :
  buckets !! clientKey req = None ->
  exists b0, fst (tokenBucket buckets req now) !! clientKey req = Some b0 /\
             last b0 = now.
Proof.
  intros Hnew.
  unfold tokenBucket. rewrite tokenBucketAt_same, (bucketFor_fresh _ _ _ Hnew).
  eexists; split; [reflexivity|]. rewrite charge_last.
  now rewrite refill_not_later by (simpl; lra).
Qed.

(** C10. The [last] field of a bucket never goes back, whatever the clock
    readings of the invocations.  Creation: in any store without a bucket
    for the key, the empty one included, the invocation that creates the
    bucket leaves it with [last] equal to its clock reading, and whatever
    invocations follow, [last] stays at or above that reading.  Afterwards:
    an invocation either keeps the [last] of a stored bucket or sets it to
    a clock reading that is strictly later, so that after any sequence of
    invocations it is at least what it was. *)
Theorem last_nondecreasing (buckets : gmap string Bucket)
    (calls : list (Request * Q)) (req reqNew : Request) (now : Q)
    (key : string) (b : Bucket) :
  (buckets !! clientKey reqNew = None ->
   (exists b0, fst (tokenBucket buckets reqNew now) !! clientKey reqNew = Some b0 /\
               last b0 = now) /\
   (exists b', fst (serve buckets ((reqNew, now) :: calls)) !! clientKey reqNew
                 = Some b' /\
               now <= last b')) /\
  (buckets !! key = Some b ->
   (exists b1, fst (tokenBucket buckets req now) !! key = Some b1 /\
               (last b1 = last b \/ (last b1 = now /\ last b < now))) /\
   (exists b', fst (serve buckets calls) !! key = Some b' /\ last b <= last b')).
Proof.
  split.
  - intros Hnew.
    destruct (tokenBucket_created buckets reqNew now Hnew) as (b0 & Hb0 & Hl0).
    split; [now exists b0|].
    rewrite serve_cons. cbn [fst].
    destruct (serve_last_le calls _ _ _ Hb0) as (b' & Hb' & Hle).
    exists b'. split; [exact Hb'|]. now rewrite <- Hl0.
  - intros Hb. split.
    + now apply tokenBucket_last.
    + now apply serve_last_le.
Qed.

Lemma last_nondecreasing_witness :
  let calls := [(fromIp "k", 400); (fromIp "k", 1500); (fromIp "k", 900)] in
  ((exists b0, fst (tokenBucket ∅ (fromIp "k") 700) !! clientKey (fromIp "k")
                 = Some b0 /\ last b0 = 700) /\
   (exists b', fst (serve ∅ ((fromIp "k", 700) :: calls)) !! clientKey (fromIp "k")
                 = Some b' /\ 700 <= last b')) /\
  (let buckets : gmap string Bucket :=
     {[ "k" := {| tokens := 2; last := 1000 |} ]} in
   (exists b1, fst (tokenBucket buckets (fromIp "k") 700) !! "k" = Some b1 /\
               (last b1 = 1000 \/ (last b1 = 700 /\ 1000 < 700))) /\
   (exists b', fst (serve buckets calls) !! "k" = Some b' /\ 1000 <= last b')).
Proof.
  split.
  - apply (proj1 (last_nondecreasing ∅
                    [(fromIp "k", 400); (fromIp "k", 1500); (fromIp "k", 900)]
                    (fromIp "k") (fromIp "k") 700 "k"
                    {| tokens := 2; last := 1000 |})).
    vm_compute. reflexivity.
  - apply (proj2 (last_nondecreasing {[ "k" := {| tokens := 2; last := 1000 |} ]}
                    [(fromIp "k", 400); (fromIp "k", 1500); (fromIp "k", 900)]
                    (fromIp "k") (fromIp "n") 700 "k"
                    {| tokens := 2; last := 1000 |})).
    vm_compute. reflexivity.
Defined.

(** ** Bursts *)

(** An invocation whose clock reading is not later than the stored
    bucket's [last] only charges the bucket. *)
Lemma tokenBucket_no_refill (buckets : gmap string Bucket) req now b :
  buckets !! clientKey req = Some b -> now <= last b ->
  tokenBucket buckets req now
    = (<[clientKey req := fst (charge b)]> buckets, snd (charge b)).
Proof.
  intros Hb Hl. unfold tokenBucket.
  rewrite tokenBucketAt_unfold, (bucketFor_found _ _ _ _ Hb).
  now rewrite (refill_not_later _ _ Hl).
Qed.

(** The first invocation for a key that has no bucket yet. *)
Lemma tokenBucket_fresh (buckets : gmap string Bucket) req now :
  buckets !! clientKey req = None ->
  tokenBucket buckets req now
    = (<[clientKey req := {| tokens := CAPACITY - cost; last := now |}]> buckets,
       CallNext).
Proof.
  intros Hb. unfold tokenBucket.
  rewrite tokenBucketAt_unfold, (bucketFor_fresh _ _ _ Hb).
  rewrite refill_not_later by (simpl; lra). reflexivity.
Qed.

Lemma charge_passes (b : Bucket) :
  cost <= tokens b ->
  charge b = ({| tokens := tokens b - cost; last := last b |}, CallNext).
Proof. intros H. unfold charge. apply Qgeb_le in H. now rewrite H. Qed.

Lemma charge_rejects (b : Bucket) :
  tokens b < cost -> charge b = (b, tooManyRequests).
Proof. intros H. unfold charge. apply Qgeb_lt in H. now rewrite H. Qed.

Lemma inject_succ (m : nat) :
  inject_Z (Z.of_nat (S m)) == inject_Z (Z.of_nat m) + 1.
Proof. rewrite Nat2Z.inj_succ, <- Z.add_1_r, inject_Z_plus. reflexivity. Qed.

Lemma inject_nonneg (m : nat) : 0 <= inject_Z (Z.of_nat m).
Proof.
  change 0 with (inject_Z 0). rewrite <- Zle_Qle. apply Nat2Z.is_nonneg.
Qed.

(** Requests at one clock reading, not later than [last], against a bucket
    that holds [m] tokens: the first [m] are admitted, the others are
    rejected, and the bucket ends with no tokens and the same [last]. *)
Lemma burst (req : Request) (now : Q) (extra m : nat)
    (buckets : gmap string Bucket) (b : Bucket) :
  buckets !! clientKey req = Some b ->
  tokens b == inject_Z (Z.of_nat m) ->
  now <= last b ->
  map proceeds (snd (serve buckets (repeat (req, now) (m + extra))))
    = repeat true m ++ repeat false extra /\
  exists b', fst (serve buckets (repeat (req, now) (m + extra))) !! clientKey req
               = Some b' /\
             tokens b' == 0 /\ last b' = last b.
Proof.
  revert buckets b. induction m as [|m IHm]; intros buckets b Hb Ht Hl.
  - change (inject_Z (Z.of_nat 0)) with 0 in Ht. simpl. revert buckets Hb.
    induction extra as [|extra IHe]; intros buckets Hb.
    + simpl. split; [reflexivity|]. exists b. now repeat split.
    + change (repeat (req, now) (S extra))
        with ((req, now) :: repeat (req, now) extra).
      rewrite serve_cons, (tokenBucket_no_refill _ _ _ _ Hb Hl).
      rewrite charge_rejects by (unfold cost; lra).
      cbn [fst snd].
      destruct (IHe (<[clientKey req := b]> buckets)) as [IH1 IH2];
        [apply lookup_insert_eq|].
      split; [|exact IH2]. simpl. now rewrite IH1.
  - change (repeat (req, now) (S m + extra))
      with ((req, now) :: repeat (req, now) (m + extra)).
    rewrite serve_cons, (tokenBucket_no_refill _ _ _ _ Hb Hl).
    rewrite inject_succ in Ht. assert (Hm := inject_nonneg m).
    rewrite charge_passes by (unfold cost; lra).
    cbn [fst snd].
    destruct (IHm (<[clientKey req := {| tokens := tokens b - cost; last := last b |}]> buckets)
                  {| tokens := tokens b - cost; last := last b |})
      as [IH1 IH2].
    + apply lookup_insert_eq.
    + simpl. unfold cost. lra.
    + exact Hl.
    + split; [simpl; now rewrite IH1|exact IH2].
Qed.

(** C2. A key that has no bucket gets one created with
    [tokens = CAPACITY] (50); 50 requests at the clock reading of the
    first one are then all admitted, and the 51st at that reading is
    rejected. *)
Theorem fresh_bucket_burst (buckets : gmap string Bucket) (req : Request) (now : Q) :
  buckets !! clientKey req = None ->
  inject_Z (Z.of_nat 50) == CAPACITY /\
  getOrCreate buckets (clientKey req) now
    = ({| tokens := CAPACITY; last := now |},
       <[clientKey req := {| tokens := CAPACITY; last := now |}]> buckets) /\
  map proceeds (snd (serve buckets (repeat (req, now) 51)))
    = repeat true 50 ++ [false].
Proof.
  intros Hb. split; [reflexivity|]. split.
  - unfold getOrCreate. now rewrite Hb.
  - change (repeat (req, now) 51)
      with ((req, now) :: repeat (req, now) (49 + 1)).
    rewrite serve_cons, (tokenBucket_fresh _ _ _ Hb).
    cbn [fst snd].
    destruct (burst req now 1 49
                (<[clientKey req := {| tokens := CAPACITY - cost; last := now |}]> buckets)
                {| tokens := CAPACITY - cost; last := now |}) as [H _].
    + apply lookup_insert_eq.
    + reflexivity.
    + simpl. lra.
    + rewrite map_cons, H. reflexivity.
Qed.

Lemma fresh_bucket_burst_witness :
  inject_Z (Z.of_nat 50) == CAPACITY /\
  getOrCreate ∅ (clientKey (fromIp "k")) 1000
    = ({| tokens := CAPACITY; last := 1000 |},
       <[clientKey (fromIp "k") := {| tokens := CAPACITY; last := 1000 |}]> ∅) /\
  map proceeds (snd (serve ∅ (repeat (fromIp "k", 1000) 51)))
    = repeat true 50 ++ [false].
Proof.
  apply (fresh_bucket_burst ∅ (fromIp "k") 1000).
  vm_compute. reflexivity.
Defined.

(** C4. With [CAPACITY = 50], [RATE = 10] and [cost = 1], for a key that
    has no bucket: the first 50 requests at clock reading 0 are all
    admitted and leave no tokens; the 51st at clock reading 0 is rejected;
    the 52nd, at clock reading 500 ms, finds 5 tokens after the refill, is
    admitted, and leaves 4 tokens. *)
Theorem concrete_scenario (buckets : gmap string Bucket) (req : Request) :
  buckets !! clientKey req = None ->
  let s50 := serve buckets (repeat (req, 0) 50) in
  let s51 := tokenBucket (fst s50) req 0 in
  let s52 := tokenBucket (fst s51) req 500 in
  (CAPACITY == 50 /\ RATE == 10 /\ cost == 1) /\
  map proceeds (snd s50) = repeat true 50 /\
  (exists b50, fst s50 !! clientKey req = Some b50 /\ tokens b50 == 0) /\
  proceeds (snd s51) = false /\
  (exists b51, fst s51 !! clientKey req = Some b51 /\ tokens b51 == 0 /\
               tokens (refill b51 500) == 5) /\
  proceeds (snd s52) = true /\
  (exists b52, fst s52 !! clientKey req = Some b52 /\ tokens b52 == 4).
Proof.
  intros Hb s50 s51 s52.
  split; [now repeat split|].
  assert (H50 : map proceeds (snd s50) = repeat true 50 /\
                exists b50, fst s50 !! clientKey req = Some b50 /\
                            tokens b50 == 0 /\ last b50 = 0).
  { unfold s50.
    change (repeat (req, 0) 50) with ((req, 0) :: repeat (req, 0) (49 + 0)).
    rewrite serve_cons, (tokenBucket_fresh _ _ _ Hb).
    cbn [fst snd].
    destruct (burst req 0 0 49
                (<[clientKey req := {| tokens := CAPACITY - cost; last := 0 |}]> buckets)
                {| tokens := CAPACITY - cost; last := 0 |}) as [H1 H2].
    - apply lookup_insert_eq.
    - reflexivity.
    - simpl. lra.
    - split; [rewrite map_cons, H1; reflexivity|exact H2]. }
  destruct H50 as [Ha50 (b50 & Hl50 & Ht50 & Hlast50)].
  assert (E51 : s51 = (<[clientKey req := b50]> (fst s50), tooManyRequests)).
  { unfold s51. rewrite (tokenBucket_no_refill _ _ _ _ Hl50) by (rewrite Hlast50; lra).
    rewrite charge_rejects by (unfold cost; lra). reflexivity. }
  assert (Hr : tokens (refill b50 500) == 5).
  { rewrite refill_later by (rewrite Hlast50; reflexivity).
    simpl. unfold elapsed. rewrite Hlast50, Ht50. reflexivity. }
  assert (E52 : s52 = (<[clientKey req :=
                           {| tokens := tokens (refill b50 500) - cost;
                              last := last (refill b50 500) |}]> (fst s51),
                       CallNext)).
  { unfold s52, tokenBucket. rewrite tokenBucketAt_unfold.
    rewrite (bucketFor_found _ _ _ b50) by (rewrite E51; apply lookup_insert_eq).
    rewrite charge_passes by (unfold cost; lra). reflexivity. }
  split; [exact Ha50|]. split; [now exists b50|].
  split; [now rewrite E51|].
  split; [exists b50; rewrite E51; simpl; rewrite lookup_insert_eq; now repeat split|].
  split; [now rewrite E52|].
  eexists. rewrite E52. simpl. rewrite lookup_insert_eq. split; [reflexivity|].
  simpl. unfold cost. lra.
Qed.

Lemma concrete_scenario_witness :
  let s50 := serve ∅ (repeat (fromIp "k", 0) 50) in
  let s51 := tokenBucket (fst s50) (fromIp "k") 0 in
  let s52 := tokenBucket (fst s51) (fromIp "k") 500 in
  (CAPACITY == 50 /\ RATE == 10 /\ cost == 1) /\
  map proceeds (snd s50) = repeat true 50 /\
  (exists b50, fst s50 !! clientKey (fromIp "k") = Some b50 /\ tokens b50 == 0) /\
  proceeds (snd s51) = false /\
  (exists b51, fst s51 !! clientKey (fromIp "k") = Some b51 /\ tokens b51 == 0 /\
               tokens (refill b51 500) == 5) /\
  proceeds (snd s52) = true /\
  (exists b52, fst s52 !! clientKey (fromIp "k") = Some b52 /\ tokens b52 == 4).
Proof.
  apply (concrete_scenario ∅ (fromIp "k")).
  vm_compute. reflexivity.
Defined.

(** ** Attempts in flight together *)

(** [tokenBucket] is a synchronous function: between reading the bucket
    and writing it back it neither awaits nor yields, so invocations for
    requests that are in flight together run one after the other, in some
    order.  A concurrent execution is therefore a list given to [serve];
    the order of that list is the unknown. *)

Lemma refill_reaches_now (b : Bucket) (now : Q) : now <= last (refill b now).
Proof.
  destruct (Qlt_le_dec (last b) now) as [H|H].
  - rewrite (refill_later _ _ H). simpl. lra.
  - now rewrite (refill_not_later _ _ H).
Qed.







(** ** A worked run *)

(** A key first seen at clock reading 0, then silent for ten seconds: of 60
    requests at 10000 ms the first 50 are admitted and the last 10 are
    rejected, since the refill stops at [CAPACITY]. *)
Example idle_then_burst :
  map proceeds
    (snd (serve (fst (tokenBucket ∅ (fromIp "k") 0))
            (repeat (fromIp "k", 10000) 60)))
  = repeat true 50 ++ repeat false 10.
Proof. vm_compute. reflexivity. Qed.

(** * Further properties of the limiter *)

(** ** One invocation, in numbers *)

Lemma refill_keeps (b : Bucket) (now : Q) :
  tokens b <= CAPACITY -> tokens b <= tokens (refill b now).
Proof.
  intros H. destruct (Qlt_le_dec (last b) now) as [Hl|Hl].
  - rewrite (refill_later _ _ Hl). simpl. apply elapsed_pos in Hl.
    apply Q.min_glb; [exact H|]. unfold RATE. lra.
  - rewrite (refill_not_later _ _ Hl). lra.
Qed.

Lemma refill_account (b : Bucket) (now : Q) :
  tokens (refill b now)
    <= tokens b + (last (refill b now) - last b) / 1000 * RATE.
Proof.
  destruct (Qlt_le_dec (last b) now) as [Hl|Hl].
  - rewrite (refill_later _ _ Hl). simpl. apply Q.le_min_r.
  - rewrite (refill_not_later _ _ Hl).
    assert (E : (last b - last b) / 1000 * RATE == 0) by (field; discriminate).
    rewrite E. lra.
Qed.

Lemma charge_account (b : Bucket) :
  tokens (fst (charge b)) + inject_Z (Z.of_nat (admissions [snd (charge b)])) * cost
    == tokens b.
Proof.
  unfold charge. destruct (Qgeb (tokens b) cost); simpl; unfold cost; field.
Qed.

(** X5. An invocation never takes more than [cost] tokens from the bucket
    of its key, and takes none when it answers 429, provided the bucket
    did not hold more than [CAPACITY]. *)
Theorem tokens_drop_at_most_cost (buckets : gmap string Bucket)
    (req : Request) (now : Q) (b : Bucket) :
  buckets !! clientKey req = Some b ->
  tokens b <= CAPACITY ->
  exists b1, fst (tokenBucket buckets req now) !! clientKey req = Some b1 /\
             tokens b - cost <= tokens b1 /\
             (proceeds (snd (tokenBucket buckets req now)) = false ->
              tokens b <= tokens b1).
Proof.
  intros Hb Hc. unfold tokenBucket.
  rewrite tokenBucketAt_same, tokenBucketAt_unfold, (bucketFor_found _ _ _ _ Hb).
  eexists; split; [reflexivity|]. cbn [snd].
  assert (Hr := refill_keeps b now Hc).
  unfold charge. destruct (Qgeb (tokens (refill b now)) cost); simpl.
  - split; [unfold cost in *; lra|discriminate].
  - split; [unfold cost in *; lra|intros _; exact Hr].
Qed.

Lemma tokens_drop_at_most_cost_witness :
  exists b1,
    fst (tokenBucket {[ "k" := {| tokens := 7; last := 1000 |} ]} (fromIp "k") 1200)
      !! clientKey (fromIp "k") = Some b1 /\
    tokens {| tokens := 7; last := 1000 |} - cost <= tokens b1 /\
    (proceeds (snd (tokenBucket {[ "k" := {| tokens := 7; last := 1000 |} ]}
                      (fromIp "k") 1200)) = false ->
     tokens {| tokens := 7; last := 1000 |} <= tokens b1).
Proof.
  apply (tokens_drop_at_most_cost {[ "k" := {| tokens := 7; last := 1000 |} ]}
           (fromIp "k") 1200 {| tokens := 7; last := 1000 |}).
  - vm_compute. reflexivity.
  - vm_compute. discriminate.
Defined.

(** ** The rate limit *)

Lemma inject_add (a n : nat) :
  inject_Z (Z.of_nat (a + n)) == inject_Z (Z.of_nat a) + inject_Z (Z.of_nat n).
Proof. now rewrite Nat2Z.inj_add, inject_Z_plus. Qed.

Lemma admissions_cons (eff : Effect) (effs : list Effect) :
  admissions (eff :: effs) = (admissions [eff] + admissions effs)%nat.
Proof. simpl. lia. Qed.

(** Tokens are only ever created by the clock.  In the exact arithmetic
    of this embedding, what a bucket holds plus what its key was admitted
    for is covered by what it held before plus [RATE] per second its
    timestamp has advanced. *)
Lemma serve_account (key : string) (calls : list (Request * Q))
    (buckets : gmap string Bucket) (b : Bucket) :
  buckets !! key = Some b -> bucket_ok b ->
  exists b', fst (serve buckets calls) !! key = Some b' /\ bucket_ok b' /\
    tokens b'
    + inject_Z (Z.of_nat (admissions (answersFor key calls (snd (serve buckets calls)))))
      * cost
    <= tokens b + (last b' - last b) / 1000 * RATE.
Proof.
  revert buckets b. induction calls as [|[req now] rest IH]; intros buckets b Hb Hok.
  - exists b. split; [exact Hb|]. split; [exact Hok|]. simpl.
    assert (E : (last b - last b) / 1000 * RATE == 0) by (field; discriminate).
    rewrite E. change (inject_Z (Z.of_nat 0)) with 0. lra.
  - rewrite serve_cons. cbn [fst snd answersFor].
    destruct (decide (clientKey req = key)) as [<-|Hne].
    + set (b1 := fst (charge (refill b now))).
      assert (Hb1 : fst (tokenBucket buckets req now) !! clientKey req = Some b1).
      { unfold tokenBucket. now rewrite tokenBucketAt_same, (bucketFor_found _ _ _ _ Hb). }
      assert (Hok1 : bucket_ok b1) by now apply charge_ok, refill_ok.
      destruct (IH _ _ Hb1 Hok1) as (b' & Hb' & Hok' & Hacc).
      exists b'. split; [exact Hb'|]. split; [exact Hok'|].
      assert (He : snd (tokenBucket buckets req now) = snd (charge (refill b now))).
      { unfold tokenBucket. now rewrite tokenBucketAt_unfold, (bucketFor_found _ _ _ _ Hb). }
      rewrite He.
      rewrite admissions_cons, inject_add.
      assert (Hc := charge_account (refill b now)). fold b1 in Hc.
      assert (Hr := refill_account b now).
      assert (Hl : last b1 = last (refill b now)) by apply charge_last.
      rewrite <- Hl in Hr.
      assert (Es : (last b' - last b) / 1000 * RATE
                   == (last b' - last b1) / 1000 * RATE
                      + (last b1 - last b) / 1000 * RATE) by (field; discriminate).
      rewrite Es. lra.
    + apply IH; [|exact Hok].
      unfold tokenBucket. now rewrite tokenBucketAt_other.
Qed.

(** X1. The limit itself.  Take a stored bucket within bounds and any run
    of invocations, for any keys and clock readings.  The number of
    requests of the bucket's key that the run admits, times [cost], is at
    most [CAPACITY] plus [RATE] for every second the bucket's timestamp
    advanced during the run. *)
Theorem admissions_bounded (buckets : gmap string Bucket)
    (calls : list (Request * Q)) (key : string) (b : Bucket) :
  buckets !! key = Some b ->
  bucket_ok b ->
  exists b', fst (serve buckets calls) !! key = Some b' /\
    inject_Z (Z.of_nat (admissions (answersFor key calls (snd (serve buckets calls)))))
      * cost
    <= CAPACITY + (last b' - last b) / 1000 * RATE.
Proof.
  intros Hb Hok.
  destruct (serve_account key calls buckets b Hb Hok) as (b' & Hb' & [H0 _] & Hacc).
  exists b'. split; [exact Hb'|]. destruct Hok as [_ Hcap]. lra.
Qed.

Lemma admissions_bounded_witness :
  let buckets : gmap string Bucket := {[ "k" := {| tokens := 2; last := 0 |} ]} in
  let calls := [(fromIp "k", 0); (fromIp "o", 5); (fromIp "k", 10);
                (fromIp "k", 20); (fromIp "k", 150); (fromIp "k", 160)] in
  exists b', fst (serve buckets calls) !! "k" = Some b' /\
    inject_Z (Z.of_nat (admissions (answersFor "k" calls (snd (serve buckets calls)))))
      * cost
    <= CAPACITY + (last b' - 0) / 1000 * RATE.
Proof.
  apply (admissions_bounded {[ "k" := {| tokens := 2; last := 0 |} ]}
           [(fromIp "k", 0); (fromIp "o", 5); (fromIp "k", 10);
            (fromIp "k", 20); (fromIp "k", 150); (fromIp "k", 160)]
           "k" {| tokens := 2; last := 0 |}).
  - vm_compute. reflexivity.
  - split; vm_compute; discriminate.
Defined.

(** The bound is reached: a full bucket last stamped at 0 that is asked
    60 times at 0 and then once every 100 ms up to 1000 ms admits
    [50 + 10] requests, which is [CAPACITY + 1 * RATE]. *)
Example admissions_bound_reached :
  admissions
    (snd (serve {[ "k" := {| tokens := 50; last := 0 |} ]}
            (repeat (fromIp "k", 0) 60
             ++ map (fun t => (fromIp "k", t))
                  [100; 200; 300; 400; 500; 600; 700; 800; 900; 1000])))
  = 60%nat.
Proof. vm_compute. reflexivity. Qed.

Example admissions_bounded_run :
  admissions (answersFor "k"
    [(fromIp "k", 0); (fromIp "o", 5); (fromIp "k", 10);
     (fromIp "k", 20); (fromIp "k", 150); (fromIp "k", 160)]
    (snd (serve {[ "k" := {| tokens := 2; last := 0 |} ]}
            [(fromIp "k", 0); (fromIp "o", 5); (fromIp "k", 10);
             (fromIp "k", 20); (fromIp "k", 150); (fromIp "k", 160)]))) = 3%nat.
Proof. vm_compute. reflexivity. Qed.

(** ** The keys of the store *)

(** X2. Buckets are added and never removed: after any run the keys of
    the store are the keys it had together with the keys the calls of the
    run resolve to. *)
Theorem store_keys (calls : list (Request * Q)) (buckets : gmap string Bucket) :
  dom (fst (serve buckets calls))
  = dom buckets ∪ list_to_set (map (fun c => clientKey (fst c)) calls).
Proof.
  revert buckets. induction calls as [|[req now] rest IH]; intros buckets.
  - cbn [serve fst map list_to_set]. now rewrite union_empty_r_L.
  - rewrite serve_cons. cbn [fst]. rewrite IH.
    unfold tokenBucket. rewrite tokenBucketAt_unfold. cbn [fst map list_to_set].
    rewrite dom_insert_L, (comm_L (∪) {[clientKey req]} (dom buckets)).
    now rewrite (assoc_L (∪)).
Qed.

(** ** Runs with several keys *)

(** X11. In a run that mixes keys, the calls of one key are answered, and
    leave its bucket, exactly as if they had been the only calls. *)
Theorem answers_by_projection (key : string) (calls : list (Request * Q))
    (buckets : gmap string Bucket) :
  answersFor key calls (snd (serve buckets calls))
    = snd (serve buckets (callsFor key calls)) /\
  fst (serve buckets calls) !! key
    = fst (serve buckets (callsFor key calls)) !! key.
Proof.
  revert buckets. induction calls as [|[req now] rest IH]; intros buckets.
  - now split.
  - rewrite serve_cons. cbn [fst snd answersFor]. unfold callsFor.
    destruct (decide (clientKey req = key)) as [He|Hne].
    + rewrite filter_cons_True by exact He.
      rewrite serve_cons. cbn [fst snd].
      destruct (IH (fst (tokenBucket buckets req now))) as [IH1 IH2].
      unfold callsFor in IH1, IH2. rewrite IH1, IH2. now split.
    + rewrite filter_cons_False by exact Hne.
      destruct (IH (fst (tokenBucket buckets req now))) as [IH1 IH2].
      rewrite IH1, IH2.
      apply serve_depends_on_key.
      * unfold tokenBucket. now apply tokenBucketAt_other.
      * unfold callsFor. apply Forall_forall. intros c Hc.
        now apply list_elem_of_filter in Hc as [Hc _].
Qed.

(** ** The timestamp, exactly *)

Lemma latest_compat (times : list Q) (a b : Q) :
  a == b -> latest a times == latest b times.
Proof.
  revert a b. induction times as [|t rest IH]; intros a b H.
  - exact H.
  - unfold latest in *. simpl. apply IH. now rewrite H.
Qed.

Lemma refill_last_max (b : Bucket) (now : Q) :
  last (refill b now) == Qmax (last b) now.
Proof.
  destruct (Qlt_le_dec (last b) now) as [H|H].
  - rewrite (refill_later _ _ H). simpl. symmetry. apply Q.max_r. lra.
  - rewrite (refill_not_later _ _ H). symmetry. now apply Q.max_l.
Qed.

(** X9. The timestamp of a stored bucket after a run is the latest among
    the timestamp it had and the clock readings of the calls of its key;
    the readings of other keys play no part. *)
Theorem last_is_latest (key : string) (calls : list (Request * Q))
    (buckets : gmap string Bucket) (b : Bucket) :
  buckets !! key = Some b ->
  exists b', fst (serve buckets calls) !! key = Some b' /\
             last b' == latest (last b) (map snd (callsFor key calls)).
Proof.
  revert buckets b. induction calls as [|[req now] rest IH]; intros buckets b Hb.
  - exists b. split; [exact Hb|reflexivity].
  - rewrite serve_cons. cbn [fst]. unfold callsFor.
    destruct (decide (clientKey req = key)) as [He|Hne].
    + rewrite filter_cons_True by exact He. subst key.
      destruct (IH (fst (tokenBucket buckets req now))
                  (fst (charge (refill b now)))) as (b' & Hb' & Hl).
      { unfold tokenBucket.
        now rewrite tokenBucketAt_same, (bucketFor_found _ _ _ _ Hb). }
      exists b'. split; [exact Hb'|]. rewrite Hl. cbn [map snd].
      unfold latest at 2. cbn [fold_left]. apply latest_compat.
      rewrite charge_last. apply refill_last_max.
    + rewrite filter_cons_False by exact Hne.
      apply IH. unfold tokenBucket. now rewrite tokenBucketAt_other.
Qed.

Lemma last_is_latest_witness :
  exists b',
    fst (serve {[ "k" := {| tokens := 2; last := 1000 |} ]}
           [(fromIp "k", 400); (fromIp "o", 9000); (fromIp "k", 1500);
            (fromIp "k", 900)]) !! "k" = Some b' /\
    last b' == latest (last {| tokens := 2; last := 1000 |})
                 (map snd (callsFor "k"
                    [(fromIp "k", 400); (fromIp "o", 9000); (fromIp "k", 1500);
                     (fromIp "k", 900)])).
Proof.
  apply (last_is_latest "k"
           [(fromIp "k", 400); (fromIp "o", 9000); (fromIp "k", 1500);
            (fromIp "k", 900)]
           {[ "k" := {| tokens := 2; last := 1000 |} ]}
           {| tokens := 2; last := 1000 |}).
  vm_compute. reflexivity.
Defined.

(** ** What a client can count on *)

Lemma elapsed_100 (b : Bucket) (now : Q) :
  last b + 100 <= now -> cost <= elapsed b now * RATE.
Proof.
  intros H. unfold elapsed, cost, RATE.
  assert (E : (now - last b) / 1000 * 10 == (now - last b) / 100)
    by (field; discriminate).
  rewrite E. apply Qle_shift_div_l; lra.
Qed.

(** X3. A client that waits at least 100 ms after the timestamp of its
    bucket, and then at least 100 ms between its requests, is never
    answered 429: every one of its requests is passed on, whatever the
    bucket held. *)
Theorem sustained_rate (req : Request) (times : list Q)
    (buckets : gmap string Bucket) (b : Bucket) :
  buckets !! clientKey req = Some b ->
  0 <= tokens b ->
  spaced (last b) times ->
  map proceeds (snd (serve buckets (map (fun t => (req, t)) times)))
    = repeat true (length times).
Proof.
  revert buckets b. induction times as [|t rest IH]; intros buckets b Hb H0 Hs.
  - reflexivity.
  - destruct Hs as [Ht Hs]. cbn [map length repeat].
    rewrite serve_cons. cbn [fst snd map].
    assert (Hlt : last b < t) by lra.
    assert (He := elapsed_100 b t Ht).
    assert (Hstep : tokenBucket buckets req t
              = (<[clientKey req :=
                     {| tokens := tokens (refill b t) - cost; last := t |}]> buckets,
                 CallNext)).
    { unfold tokenBucket.
      rewrite tokenBucketAt_unfold, (bucketFor_found _ _ _ _ Hb).
      rewrite charge_passes, (refill_later _ _ Hlt); [reflexivity|].
      rewrite (refill_later _ _ Hlt). simpl.
      apply Q.min_glb; unfold cost, CAPACITY in *; lra. }
    rewrite Hstep. cbn [fst snd proceeds]. f_equal.
    apply (IH _ {| tokens := tokens (refill b t) - cost; last := t |}).
    + apply lookup_insert_eq.
    + rewrite (refill_later _ _ Hlt). simpl.
      assert (cost <= Qmin CAPACITY (tokens b + elapsed b t * RATE)).
      { apply Q.min_glb; unfold cost, CAPACITY in *; lra. }
      lra.
    + exact Hs.
Qed.

Lemma sustained_rate_witness :
  map proceeds
    (snd (serve {[ "k" := {| tokens := 0; last := 1000 |} ]}
            (map (fun t => (fromIp "k", t)) [1100; 1200; 1350; 1450])))
  = repeat true (length [1100; 1200; 1350; 1450]).
Proof.
  apply (sustained_rate (fromIp "k") [1100; 1200; 1350; 1450]
           {[ "k" := {| tokens := 0; last := 1000 |} ]}
           {| tokens := 0; last := 1000 |}).
  - vm_compute. reflexivity.
  - vm_compute. discriminate.
  - simpl. repeat split; vm_compute; discriminate.
Defined.

(** X4. A bucket that has been idle for at least [CAPACITY / RATE]
    seconds is full again, and no more than full: of [50 + extra]
    requests at one clock reading the first 50 are passed on and the
    [extra] others are answered 429. *)
Theorem idle_then_full_burst (buckets : gmap string Bucket) (req : Request)
    (b : Bucket) (now : Q) (extra : nat) :
  buckets !! clientKey req = Some b ->
  0 <= tokens b ->
  CAPACITY / RATE <= elapsed b now ->
  map proceeds (snd (serve buckets (repeat (req, now) (50 + extra))))
    = repeat true 50 ++ repeat false extra.
Proof.
  intros Hb H0 Hidle.
  assert (H5 : 5 <= elapsed b now).
  { eapply Qle_trans; [|exact Hidle]. apply Qle_lteq. right. reflexivity. }
  assert (Hlt : last b < now) by (apply elapsed_pos; lra).
  assert (Hfull : tokens (refill b now) == CAPACITY).
  { rewrite (refill_later _ _ Hlt). simpl. apply Q.min_l.
    unfold CAPACITY, RATE. lra. }
  change (repeat (req, now) (50 + extra))
    with ((req, now) :: repeat (req, now) (49 + extra)).
  rewrite serve_cons.
  assert (Hstep : tokenBucket buckets req now
            = (<[clientKey req :=
                   {| tokens := tokens (refill b now) - cost; last := now |}]> buckets,
               CallNext)).
  { unfold tokenBucket.
    rewrite tokenBucketAt_unfold, (bucketFor_found _ _ _ _ Hb).
    rewrite charge_passes by (rewrite Hfull; unfold cost, CAPACITY; lra).
    now rewrite (refill_later _ _ Hlt). }
  rewrite Hstep. cbn [fst snd].
  destruct (burst req now extra 49
              (<[clientKey req :=
                   {| tokens := tokens (refill b now) - cost; last := now |}]> buckets)
              {| tokens := tokens (refill b now) - cost; last := now |}) as [H _].
  - apply lookup_insert_eq.
  - cbn [tokens]. rewrite Hfull. reflexivity.
  - cbn [last]. lra.
  - rewrite map_cons, H. reflexivity.
Qed.

Lemma idle_then_full_burst_witness :
  map proceeds
    (snd (serve {[ "k" := {| tokens := 3; last := 1000 |} ]}
            (repeat (fromIp "k", 6000) (50 + 4))))
  = repeat true 50 ++ repeat false 4.
Proof.
  apply (idle_then_full_burst {[ "k" := {| tokens := 3; last := 1000 |} ]}
           (fromIp "k") {| tokens := 3; last := 1000 |} 6000 4).
  - vm_compute. reflexivity.
  - vm_compute. discriminate.
  - vm_compute. discriminate.
Defined.

(** ** Asking again while limited *)

Lemma rejected_inv (b : Bucket) :
  proceeds (snd (charge b)) = false ->
  charge b = (b, tooManyRequests) /\ tokens b < cost.
Proof.
  unfold charge. destruct (Qgeb (tokens b) cost) eqn:E; simpl; [discriminate|].
  intros _. split; [reflexivity|]. now apply Qgeb_lt.
Qed.

(** X10. Once a request has been answered 429, repeating it at the same
    clock reading changes nothing: each repetition is answered 429 and
    the store stays exactly as the first answer left it. *)
Theorem rejection_idempotent (buckets : gmap string Bucket) (req : Request)
    (now : Q) (n : nat) :
  proceeds (snd (tokenBucket buckets req now)) = false ->
  serve (fst (tokenBucket buckets req now)) (repeat (req, now) n)
    = (fst (tokenBucket buckets req now), repeat tooManyRequests n).
Proof.
  unfold tokenBucket. rewrite tokenBucketAt_unfold. cbn [fst snd].
  set (r := refill (bucketFor buckets (clientKey req) now) now).
  intros Hrej. apply rejected_inv in Hrej as [Hc Hlt]. rewrite Hc. cbn [fst].
  assert (Hnow : now <= last r) by apply refill_reaches_now.
  induction n as [|n IH].
  - reflexivity.
  - cbn [repeat]. rewrite serve_cons.
    rewrite (tokenBucket_no_refill _ _ _ r) by (apply lookup_insert_eq || exact Hnow).
    rewrite Hc. cbn [fst snd]. rewrite insert_insert_eq, IH. reflexivity.
Qed.

Lemma rejection_idempotent_witness :
  serve (fst (tokenBucket {[ "k" := {| tokens := 0; last := 1000 |} ]}
                (fromIp "k") 1050))
        (repeat (fromIp "k", 1050) 3)
  = (fst (tokenBucket {[ "k" := {| tokens := 0; last := 1000 |} ]}
            (fromIp "k") 1050),
     repeat tooManyRequests 3).
Proof.
  apply (rejection_idempotent {[ "k" := {| tokens := 0; last := 1000 |} ]}
           (fromIp "k") 1050 3).
  vm_compute. reflexivity.
Defined.

(** ** The resolver on its own, and what keys mean for the limiter *)

(** X6. [getKey] by itself does not always return a usable string: it
    returns a falsy value (the raw [socket.remoteAddress], [undefined] or
    empty) exactly when no source resolves, and otherwise the key the
    middleware uses. *)
Theorem getKey_unresolved (req : Request) :
  getKey req = (if unresolved req then remoteAddress req else Some (clientKey req)) /\
  truthy (getKey req) = negb (unresolved req).
Proof.
  destruct req as [[[|c1 s1]|] [[|c2 s2]|] [[|c3 s3]|]]; split; reflexivity.
Qed.

Lemma unresolved_anon (req : Request) :
  unresolved req = true -> clientKey req = "anon".
Proof.
  destruct req as [[[|c1 s1]|] [[|c2 s2]|] [[|c3 s3]|]];
    try discriminate; reflexivity.
Qed.

Lemma serve_snoc (calls : list (Request * Q)) (req : Request) (now : Q)
    (buckets : gmap string Bucket) :
  serve buckets (calls ++ [(req, now)])
  = (fst (tokenBucket (fst (serve buckets calls)) req now),
     snd (serve buckets calls)
       ++ [snd (tokenBucket (fst (serve buckets calls)) req now)]).
Proof.
  revert buckets. induction calls as [|[r t] rest IH]; intros buckets.
  - simpl. now destruct (tokenBucket buckets req now).
  - rewrite <- app_comm_cons, !serve_cons, IH. reflexivity.
Qed.

(** X7. Requests for which no source of identity resolves all draw on the
    one bucket of ["anon"]: the middleware treats any two of them alike,
    and once 50 such requests have emptied a new ["anon"] bucket, the
    next one at that clock reading is answered 429 even if it comes from
    a different request. *)
Theorem anonymous_share_bucket (buckets : gmap string Bucket)
    (req1 req2 : Request) (now : Q) :
  unresolved req1 = true ->
  unresolved req2 = true ->
  buckets !! "anon" = None ->
  (forall store t, tokenBucket store req1 t = tokenBucket store req2 t) /\
  map proceeds (snd (serve buckets (repeat (req1, now) 50 ++ [(req2, now)])))
    = repeat true 50 ++ [false].
Proof.
  intros H1 H2 Hfresh.
  assert (K1 := unresolved_anon _ H1). assert (K2 := unresolved_anon _ H2).
  assert (Hsame : forall store t, tokenBucket store req1 t = tokenBucket store req2 t).
  { intros store t. unfold tokenBucket. now rewrite K1, K2. }
  split; [exact Hsame|].
  rewrite serve_snoc, <- Hsame, <- serve_snoc, <- repeat_cons.
  change ((req1, now) :: repeat (req1, now) 50)
    with ((req1, now) :: repeat (req1, now) (49 + 1)).
  rewrite <- K1 in Hfresh.
  rewrite serve_cons, (tokenBucket_fresh _ _ _ Hfresh). cbn [fst snd].
  destruct (burst req1 now 1 49
              (<[clientKey req1 := {| tokens := CAPACITY - cost; last := now |}]> buckets)
              {| tokens := CAPACITY - cost; last := now |}) as [H _].
  - apply lookup_insert_eq.
  - reflexivity.
  - simpl. lra.
  - rewrite map_cons, H. reflexivity.
Qed.

Lemma anonymous_share_bucket_witness :
  let req1 := {| ip := None; x_forwarded_for := None; remoteAddress := None |} in
  let req2 := {| ip := Some EmptyString; x_forwarded_for := None;
                 remoteAddress := Some EmptyString |} in
  (forall store t, tokenBucket store req1 t = tokenBucket store req2 t) /\
  map proceeds (snd (serve ∅ (repeat (req1, 0) 50 ++ [(req2, 0)])))
    = repeat true 50 ++ [false].
Proof.
  apply (anonymous_share_bucket ∅
           {| ip := None; x_forwarded_for := None; remoteAddress := None |}
           {| ip := Some EmptyString; x_forwarded_for := None;
              remoteAddress := Some EmptyString |} 0).
  - reflexivity.
  - reflexivity.
  - vm_compute. reflexivity.
Defined.

(** X8. When [req.ip] is not available the key is whatever the
    forwarded-for header says.  A request whose header value has no
    bucket yet is therefore passed on and given a new bucket, whatever
    the state of the other buckets. *)
Theorem forwarded_value_fresh_bucket (buckets : gmap string Bucket)
    (req : Request) (h : string) (now : Q) :
  truthy (ip req) = false ->
  x_forwarded_for req = Some h ->
  h <> EmptyString ->
  buckets !! h = None ->
  clientKey req = h /\
  tokenBucket buckets req now
    = (<[h := {| tokens := CAPACITY - cost; last := now |}]> buckets, CallNext).
Proof.
  intros Hip Hx Hh Hfresh.
  assert (K : clientKey req = h).
  { unfold clientKey, getKey, js_or. rewrite Hip, Hx.
    destruct h as [|c h']; [contradiction|reflexivity]. }
  split; [exact K|]. rewrite <- K in Hfresh |- *.
  now apply tokenBucket_fresh.
Qed.

Lemma forwarded_value_fresh_bucket_witness :
  let req := {| ip := None; x_forwarded_for := Some "10.0.0.7";
                remoteAddress := Some "192.168.1.1" |} in
  let buckets : gmap string Bucket :=
    {[ "192.168.1.1" := {| tokens := 0; last := 500 |} ]} in
  clientKey req = "10.0.0.7" /\
  tokenBucket buckets req 500
    = (<["10.0.0.7" := {| tokens := CAPACITY - cost; last := 500 |}]> buckets,
       CallNext).
Proof.
  apply (forwarded_value_fresh_bucket
           {[ "192.168.1.1" := {| tokens := 0; last := 500 |} ]}
           {| ip := None; x_forwarded_for := Some "10.0.0.7";
              remoteAddress := Some "192.168.1.1" |} "10.0.0.7" 500).
  - reflexivity.
  - reflexivity.
  - discriminate.
  - vm_compute. reflexivity.
Defined.

(** ** Waiting *)

Lemma proceeds_charge (b : Bucket) :
  proceeds (snd (charge b)) = true <-> cost <= tokens b.
Proof.
  unfold charge. destruct (Qgeb (tokens b) cost) eqn:E; simpl.
  - apply Qgeb_le in E. now split.
  - apply Qgeb_lt in E. split; [discriminate|]. intros H. lra.
Qed.

(** X12. Waiting never turns a yes into a no: if a request would be
    passed on at clock reading [t1], the same request made instead at a
    later reading [t2] is passed on as well. *)
Theorem waiting_never_hurts (buckets : gmap string Bucket) (req : Request)
    (t1 t2 : Q) :
  t1 <= t2 ->
  proceeds (snd (tokenBucket buckets req t1)) = true ->
  proceeds (snd (tokenBucket buckets req t2)) = true.
Proof.
  intros Ht. destruct (buckets !! clientKey req) as [b|] eqn:Hb.
  - unfold tokenBucket. rewrite !tokenBucketAt_unfold. cbn [snd].
    rewrite !(bucketFor_found _ _ _ _ Hb), !proceeds_charge.
    intros H1.
    destruct (Qlt_le_dec (last b) t2) as [H2|H2].
    + rewrite (refill_later _ _ H2). simpl.
      assert (He2 := proj2 (elapsed_pos b t2) H2).
      apply Q.min_glb; [unfold cost, CAPACITY; lra|].
      destruct (Qlt_le_dec (last b) t1) as [Hl|Hl].
      * rewrite (refill_later _ _ Hl) in H1. simpl in H1.
        apply Q.min_glb_iff in H1 as [_ H1].
        assert (elapsed b t1 <= elapsed b t2).
        { unfold elapsed. apply Qmult_le_compat_r; [lra|]. discriminate. }
        unfold RATE in *. lra.
      * rewrite (refill_not_later _ _ Hl) in H1. unfold RATE. lra.
    + rewrite (refill_not_later _ _ H2).
      rewrite refill_not_later in H1 by lra. exact H1.
  - intros _. now rewrite (tokenBucket_fresh _ _ _ Hb).
Qed.

Lemma waiting_never_hurts_witness :
  proceeds (snd (tokenBucket {[ "k" := {| tokens := 1 # 2; last := 1000 |} ]}
                   (fromIp "k") 1200)) = true.
Proof.
  apply (waiting_never_hurts {[ "k" := {| tokens := 1 # 2; last := 1000 |} ]}
           (fromIp "k") 1060 1200).
  - vm_compute. discriminate.
  - vm_compute. reflexivity.
Defined.
